(** * Zumo line follower (kdh_line.ino): allocator, steering law, operator state

    The sketch computes on C++ [float]s.  Its specification reads them as real
    numbers, so the arithmetic is kept behind a small interface, [Num], with
    three instances: the real numbers [R] and the rationals [Q], which are
    exact and over which every definition runs, and IEEE 754 binary32, the
    [float] of the target, with its rounding, infinities and NaN.  A property
    proved over [R] is a property of the sketch only where rounding cannot
    change it; what rounding does change is stated and proved on binary32.

    The display and [setup] drive the LCD and the sensor calibration and
    assign none of the sketch's globals, so they are kept apart from the
    control cycle: the bar display (lines 31-64) and the calibration loop of
    [setup] (lines 111-115) are modelled on their own, the texts written to
    the LCD (lines 102-110, 132-142) are not.  The hardware reads of one cycle (line position
    and the three debounced presses) are the cycle's [Inputs].  The motor
    driver is a library outside the sketch: the model stops at the pair of
    [float]s the sketch passes to [motors.setSpeeds], before the callee
    converts or limits them. *)

From Stdlib Require Import ZArith QArith Qreals Reals Lra Lia List Bool.
From Stdlib Require Import Floats.SpecFloat.
From Stdlib Require Lqa.
Import ListNotations.

(** ** Arithmetic interface *)

Class Num (F : Type) := {
  fadd : F -> F -> F;
  fsub : F -> F -> F;
  fmul : F -> F -> F;
  fltb : F -> F -> bool;
  (** a decimal literal of the source, or a converted [int] *)
  lit : Q -> F
}.

Declare Scope num_scope.
Delimit Scope num_scope with num.
Infix "+" := fadd : num_scope.
Infix "-" := fsub : num_scope.
Infix "*" := fmul : num_scope.
Notation "a <? b" := (fltb a b) : num_scope.
Notation "a >? b" := (fltb b a) : num_scope.

Definition Rltb (a b : R) : bool := if Rlt_dec a b then true else false.

#[export] Instance Num_R : Num R := {
  fadd := Rplus; fsub := Rminus; fmul := Rmult; fltb := Rltb; lit := Q2R
}.

Definition Qltb (a b : Q) : bool := negb (Qle_bool b a).

#[export] Instance Num_Q : Num Q := {
  fadd := Qplus; fsub := Qminus; fmul := Qmult; fltb := Qltb; lit := fun q => q
}.

(** The [int] of the target (AVR, 16 bits), two's complement. *)
Definition int16 (z : Z) : Z := ((z + 32768) mod 65536 - 32768)%Z.

(** ** The program *)

Section Sketch.
Context {F : Type} `{Num F}.
Local Open Scope num_scope.

(** Calls that leave the sketch, in program order: every entry into
    [setLinRotSpeeds] with its two arguments, and every [motors.setSpeeds]
    with the pair it is given. *)
Inductive event : Type :=
| Alloc (lin_speed rot_speed : F)
| SetSpeeds (left_speed right_speed : F).

(** The globals of lines 24-28 and the calls made so far. *)
Record World : Type := mkWorld {
  pause : bool;
  desired_lin_speed : F;
  rot_gain : F;
  trace : list event
}.

Definition emit (e : event) (w : World) : World :=
  mkWorld (pause w) (desired_lin_speed w) (rot_gain w) (trace w ++ [e]).

(** Lines 74-90: the chain of four guarded blocks on the two track speeds. *)
Definition constrain (left_speed right_speed : F) : F * F :=
  if left_speed >? lit 400 then
    let right_speed := right_speed - (left_speed - lit 400) in
    let right_speed :=
      if right_speed <? lit (-400) then lit (-400) else right_speed in
    (lit 400, right_speed)
  else if right_speed >? lit 400 then
    let left_speed := left_speed - (right_speed - lit 400) in
    let left_speed :=
      if left_speed <? lit (-400) then lit (-400) else left_speed in
    (left_speed, lit 400)
  else if left_speed <? lit (-400) then
    let right_speed := right_speed - (left_speed + lit 400) in
    let right_speed :=
      if right_speed >? lit 400 then lit 400 else right_speed in
    (lit (-400), right_speed)
  else if right_speed <? lit (-400) then
    let left_speed := left_speed - (right_speed + lit 400) in
    let left_speed :=
      if left_speed >? lit 400 then lit 400 else left_speed in
    (left_speed, lit (-400))
  else (left_speed, right_speed).

(** Lines 70-71 and 92: the pair handed to [motors.setSpeeds]. *)
Definition wheel_speeds (lin_speed rot_speed : F) : F * F :=
  let left_speed := lin_speed - rot_speed in
  let right_speed := lin_speed + rot_speed in
  constrain left_speed right_speed.

(** Lines 69-93. *)
Definition setLinRotSpeeds (lin_speed rot_speed : F) (w : World) : World :=
  let w := emit (Alloc lin_speed rot_speed) w in
  let '(left_speed, right_speed) := wheel_speeds lin_speed rot_speed in
  emit (SetSpeeds left_speed right_speed) w.

(** What the hardware returns in one pass of [loop]: [readLine] (line 119) and
    the three [getSingleDebouncedPress] polls (lines 145, 151, 157). *)
Record Inputs : Type := mkInputs {
  readLine : Z;
  button_a : bool;
  button_b : bool;
  button_c : bool
}.

(** Line 124: [rot_gain * -(line_position - 2000)], the subtraction and the
    negation on [int], the product on [float]. *)
Definition rot_speed_of (gain : F) (line_position : Z) : F :=
  gain * lit (inject_Z (int16 (- int16 (line_position - 2000)))).

Definition set_pause (b : bool) (w : World) : World :=
  mkWorld b (desired_lin_speed w) (rot_gain w) (trace w).

Definition set_desired_lin_speed (v : F) (w : World) : World :=
  mkWorld (pause w) v (rot_gain w) (trace w).

(** Lines 118-161, one control cycle. *)
Definition loop (i : Inputs) (w : World) : World :=
  let line_position := int16 (readLine i) in
  let rot_speed := rot_speed_of (rot_gain w) line_position in
  let lin_speed := desired_lin_speed w in
  let w :=
    if pause w then setLinRotSpeeds (lit 0) (lit 0) w
    else setLinRotSpeeds lin_speed rot_speed w in
  let w := if button_a i then set_pause (negb (pause w)) w else w in
  let w :=
    if button_b i
    then set_desired_lin_speed (desired_lin_speed w * lit 0.9) w else w in
  let w :=
    if button_c i
    then set_desired_lin_speed (desired_lin_speed w * lit 1.1) w else w in
  w.

(** Lines 24-28: the globals as initialised at process start. *)
Definition init : World := mkWorld true (lit 100) (lit 0.1) [].

(** The unbounded repetition of [loop], cut after the cycles whose inputs
    are given. *)
Fixpoint run (cycles : list Inputs) (w : World) : World :=
  match cycles with
  | [] => w
  | i :: rest => run rest (loop i w)
  end.

(** A cycle in which no button reports a press. *)
Definition no_press (i : Inputs) : Prop :=
  button_a i = false /\ button_b i = false /\ button_c i = false.

(** The arguments of the calls of [setLinRotSpeeds], oldest first. *)
Fixpoint commands (t : list event) : list (F * F) :=
  match t with
  | [] => []
  | Alloc lin rot :: t => (lin, rot) :: commands t
  | SetSpeeds _ _ :: t => commands t
  end.

(** The pairs given to [motors.setSpeeds], oldest first. *)
Fixpoint actuations (t : list event) : list (F * F) :=
  match t with
  | [] => []
  | Alloc _ _ :: t => actuations t
  | SetSpeeds l r :: t => (l, r) :: actuations t
  end.

(** *** The guards of [constrain], named *)

(** The four guarded blocks of lines 74, 78, 82 and 86. *)
Inductive branch : Type := LeftHigh | RightHigh | LeftLow | RightLow.

(** The guard of each block on the nominal pair. *)
Definition guard (b : branch) (left_speed right_speed : F) : bool :=
  match b with
  | LeftHigh => left_speed >? lit 400
  | RightHigh => right_speed >? lit 400
  | LeftLow => left_speed <? lit (-400)
  | RightLow => right_speed <? lit (-400)
  end.

(** The body of each block: lines 75-77, 79-81, 83-85, 87-89. *)
Definition body (b : branch) (left_speed right_speed : F) : F * F :=
  match b with
  | LeftHigh =>
      let right_speed := right_speed - (left_speed - lit 400) in
      (lit 400,
       if right_speed <? lit (-400) then lit (-400) else right_speed)
  | RightHigh =>
      let left_speed := left_speed - (right_speed - lit 400) in
      (if left_speed <? lit (-400) then lit (-400) else left_speed,
       lit 400)
  | LeftLow =>
      let right_speed := right_speed - (left_speed + lit 400) in
      (lit (-400),
       if right_speed >? lit 400 then lit 400 else right_speed)
  | RightLow =>
      let left_speed := left_speed - (right_speed + lit 400) in
      (if left_speed >? lit 400 then lit 400 else left_speed,
       lit (-400))
  end.

(** The inner guard of each block (lines 76, 80, 84, 88): whether the side
    opposite to the offending one is clamped after the shift. *)
Definition opposite_clamped (b : branch) (left_speed right_speed : F) : bool :=
  match b with
  | LeftHigh => (right_speed - (left_speed - lit 400)) <? lit (-400)
  | RightHigh => (left_speed - (right_speed - lit 400)) <? lit (-400)
  | LeftLow => (right_speed - (left_speed + lit 400)) >? lit 400
  | RightLow => (left_speed - (right_speed + lit 400)) >? lit 400
  end.

(** The first block, in the order of the source, whose guard holds. *)
Fixpoint first_match (order : list branch) (left_speed right_speed : F)
  : option branch :=
  match order with
  | [] => None
  | b :: rest =>
      if guard b left_speed right_speed then Some b
      else first_match rest left_speed right_speed
  end.

Definition source_order : list branch := [LeftHigh; RightHigh; LeftLow; RightLow].

Definition taken (left_speed right_speed : F) : option branch :=
  first_match source_order left_speed right_speed.

End Sketch.

Arguments World F : clear implicits.
Arguments event F : clear implicits.

(** ** Rational runs read as real runs *)

Definition eventR (e : event Q) : event R :=
  match e with
  | Alloc lin rot => Alloc (Q2R lin) (Q2R rot)
  | SetSpeeds l r => SetSpeeds (Q2R l) (Q2R r)
  end.

Definition worldR (w : World Q) : World R :=
  mkWorld (pause w) (Q2R (desired_lin_speed w)) (Q2R (rot_gain w))
    (map eventR (trace w)).

(** Twenty presses of C while paused with the line centred, a press of A, and
    one running cycle with the line read at 1000. *)
Definition speed_up_then_run : list Inputs :=
  repeat (mkInputs 2000 false false true) 20 ++
  [mkInputs 2000 true false false; mkInputs 1000 false false false].

(** Fifteen presses of C while paused with the line centred, a press of A, and
    one running cycle with the line read at 1900. *)
Definition fifteen_presses_then_run : list Inputs :=
  repeat (mkInputs 2000 false false true) 15 ++
  [mkInputs 2000 true false false; mkInputs 1900 false false false].

(** ** Counting presses, pairing calls *)

(** How many cycles of a run report a press of the button [b]. *)
Definition presses (b : Inputs -> bool) (cycles : list Inputs) : nat :=
  length (filter b cycles).

(** The two entries one call of [setLinRotSpeeds] with the command [c] adds
    to the trace. *)
Definition call {F : Type} `{Num F} (c : F * F) : list (event F) :=
  [Alloc (fst c) (snd c);
   SetSpeeds (fst (wheel_speeds (fst c) (snd c)))
             (snd (wheel_speeds (fst c) (snd c)))].

(** The two tracks of a pair sent to the motors are within [-400, 400]. *)
Definition in_range (p : R * R) : Prop :=
  (-400 <= fst p <= 400)%R /\ (-400 <= snd p <= 400)%R.

(** ** The bar display (lines 31-64) *)

Section Display.
Local Open Scope Z_scope.

(** [uint8_t] and [long] of the target. *)
Definition uint8 (z : Z) : Z := z mod 256.
Definition int32 (z : Z) : Z := (z + 2147483648) mod 4294967296 - 2147483648.

(** The calls on [lcd] that the bar display makes.  The picture of
    [loadCustomCharacter] is the eight bytes the library reads from the
    pointer it is given, one per pixel row, top row first. *)
Inductive lcd_event : Type :=
| LoadCustomCharacter (picture : list Z) (number : Z)
| GotoXY (x y : Z)
| PrintChar (c : Z).

(** Lines 36-38. *)
Definition levels : list Z := [0; 0; 0; 0; 0; 0; 0; 63; 63; 63; 63; 63; 63; 63].

(** The eight bytes at [levels + i]; fewer when the read would leave the
    table. *)
Definition picture_at (i : nat) : list Z := firstn 8 (skipn i levels).

(** Lines 34-42: the loop over [i = 0 .. 6]. *)
Definition loadCustomCharacters : list lcd_event :=
  List.map (fun i => LoadCustomCharacter (picture_at i) (Z.of_nat i)) (seq 0 7).

(** Line 49; the [char] '\xff' reaches the display as the byte 255. *)
Definition barChars : list Z := [32; 0; 1; 2; 3; 4; 5; 6; 255].

(** Lines 46-51.  The argument is converted to [uint8_t] at the call; the
    result is [None] if the index left [barChars]. *)
Definition printBar (height : Z) : option lcd_event :=
  let height := uint8 height in
  let height := if 8 <? height then 8 else height in
  option_map PrintChar (nth_error barChars (Z.to_nat height)).

(** [map] of the Arduino core, which the sketch calls at line 61: on [long],
    with the division of C. *)
Definition arduino_map (x in_min in_max out_min out_max : Z) : Z :=
  int32 (int32 (int32 (int32 (x - in_min) * int32 (out_max - out_min))
                ÷ int32 (in_max - in_min))
         + out_min).

(** Line 61. *)
Definition barHeight (reading : Z) : Z := uint8 (arduino_map reading 0 1000 0 8).

(** Lines 59-63, for the indices still to do; [None] when an index is outside
    [readings]. *)
Fixpoint print_bars (indices : list nat) (readings : list Z)
  : option (list lcd_event) :=
  match indices with
  | [] => Some []
  | i :: rest =>
      match nth_error readings i with
      | None => None
      | Some reading =>
          match printBar (barHeight reading), print_bars rest readings with
          | Some e, Some es => Some (e :: es)
          | _, _ => None
          end
      end
  end.

(** Lines 56-64. *)
Definition printReadingsToLCD (readings : list Z) : option (list lcd_event) :=
  option_map (cons (GotoXY 0 0)) (print_bars (seq 0 5) readings).

(** The picture last loaded under a character number. *)
Fixpoint loaded (number : Z) (calls : list lcd_event) : option (list Z) :=
  match calls with
  | [] => None
  | LoadCustomCharacter picture n :: rest =>
      match loaded number rest with
      | Some later => Some later
      | None => if n =? number then Some picture else None
      end
  | _ :: rest => loaded number rest
  end.

(** Rows of a picture with a pixel set. *)
Definition filled_rows (picture : list Z) : nat :=
  length (filter (fun row => negb (row =? 0)) picture).

(** How many bars a character shows once [loadCustomCharacters] has run: none
    for the space, eight for 0xFF (the two characters the comment of lines
    31-33 takes from the display's own font), the filled rows of the loaded
    picture otherwise. *)
Definition bars_shown (c : Z) : option nat :=
  if c =? 32 then Some 0%nat
  else if c =? 255 then Some 8%nat
  else option_map filled_rows (loaded c loadCustomCharacters).

End Display.

(** ** The calibration loop of [setup] (lines 111-115) *)

(** One poll of button A in the loop, with the readings [readCalibrated]
    would deliver if the body runs. *)
Record Poll : Type := mkPoll {
  pressed : bool;
  calibrated : list Z
}.

Inductive setup_event : Type :=
| Calibrate
| ReadCalibrated
| Lcd (e : lcd_event).

(** Lines 111-115 on the polls given: the calls made and the polls left over
    when the loop is left; [None] when the polls end before a press, or a
    reading is too short for the display. *)
Fixpoint calibration_loop (polls : list Poll)
  : option (list setup_event * list Poll) :=
  match polls with
  | [] => None
  | p :: rest =>
      if pressed p then Some ([], rest)
      else
        match printReadingsToLCD (calibrated p), calibration_loop rest with
        | Some shown, Some (later, left_over) =>
            Some (Calibrate :: ReadCalibrated :: List.map Lcd shown ++ later,
                  left_over)
        | _, _ => None
        end
  end.

(** The polls before the first press. *)
Fixpoint before_press (polls : list Poll) : list Poll :=
  match polls with
  | [] => []
  | p :: rest => if pressed p then [] else p :: before_press rest
  end.

(** How often [calibrate] is called. *)
Definition calibrations (t : list setup_event) : nat :=
  length (filter (fun e => match e with Calibrate => true | _ => false end) t).

(** ** The machine arithmetic: IEEE 754 binary32 *)

(** A [float] of the target, and its [double] too, is a binary32 number: 24
    bits of precision and exponents below 128, here in the Standard Library's
    specification of IEEE 754 arithmetic, rounding to nearest, ties to even. *)
Definition b32_of_Z (z : Z) : spec_float := binary_normalize 24 128 z 0 false.

(** The float nearest to the literal n/d: the rounded quotient of n and d,
    which are floats themselves for every literal and every converted [int]
    of the sketch. *)
Definition b32_lit (q : Q) : spec_float :=
  SFdiv 24 128 (b32_of_Z (Qnum q)) (b32_of_Z (Zpos (Qden q))).

#[export] Instance Num_binary32 : Num spec_float := {
  fadd := SFadd 24 128; fsub := SFsub 24 128; fmul := SFmul 24 128;
  fltb := SFltb; lit := b32_lit
}.




(** The mantissa [m] has the length binary32 gives to a number with the
    exponent [e]. *)
Definition canonical32 (m : positive) (e : Z) : Prop :=
  fexp 24 128 (Zpos (digits2_pos m) + e) = e.

(** ** The parts of a block of [constrain] *)

Section Blocks.
Context {F : Type} `{Num F}.
Local Open Scope num_scope.




(** Lines 150-160: what the presses of B and C of one cycle do to the desired
    linear speed. *)
Definition adjust (v : F) (i : Inputs) : F :=
  let v := if button_b i then v * lit 0.9 else v in
  if button_c i then v * lit 1.1 else v.

End Blocks.

(** ** Runs on the rational instance *)

Example run_500_0 : wheel_speeds 500%Q 0%Q = (400, 400)%Q.
Proof. reflexivity. Qed.

Example run_0_500 : wheel_speeds 0%Q 500%Q = (-400, 400)%Q.
Proof. reflexivity. Qed.

Example run_1000_100 : wheel_speeds 1000%Q 100%Q = (400, 600)%Q.
Proof. reflexivity. Qed.

Example run_back_1000_100 : wheel_speeds (-1000)%Q (-100)%Q = (-400, -600)%Q.
Proof. reflexivity. Qed.

Example run_steer_left_edge : Qred (rot_speed_of 0.1%Q 0) = 200%Q.
Proof. reflexivity. Qed.

Example run_paused_cycle :
  loop (mkInputs 1000 true false true) (init : World Q) =
  mkWorld false (100 * 1.1)%Q 0.1%Q [Alloc 0 0; SetSpeeds 0 0]%Q.
Proof. reflexivity. Qed.

(** ** Facts that hold for every arithmetic *)

Section AnyArithmetic.
Context {F : Type} `{Num F}.

Lemma commands_app (s t : list (event F)) :
  commands (s ++ t) = commands s ++ commands t.
Proof.
  induction s as [|[lin rot|l r] s IH]; cbn; [reflexivity | f_equal | ]; exact IH.
Qed.

Lemma actuations_app (s t : list (event F)) :
  actuations (s ++ t) = actuations s ++ actuations t.
Proof.
  induction s as [|[lin rot|l r] s IH]; cbn; [reflexivity | | f_equal]; exact IH.
Qed.

(** [setLinRotSpeeds] reads no global and writes none: it adds its own entry
    and one [motors.setSpeeds] with the pair of [wheel_speeds]. *)
Lemma setLinRotSpeeds_eq (lin rot : F) (w : World F) :
  setLinRotSpeeds lin rot w =
  mkWorld (pause w) (desired_lin_speed w) (rot_gain w)
    (trace w ++ [Alloc lin rot;
                 SetSpeeds (fst (wheel_speeds lin rot)) (snd (wheel_speeds lin rot))]).
Proof.
  unfold setLinRotSpeeds, emit.
  destruct (wheel_speeds lin rot) as [l r]; cbn.
  now rewrite <- app_assoc.
Qed.

(** [constrain] runs the body of the first block whose guard holds, and is the
    identity when no guard holds. *)
Lemma constrain_taken (l r : F) :
  constrain l r =
  match taken l r with Some b => body b l r | None => (l, r) end.
Proof.
  unfold constrain, taken, source_order; cbn.
  destruct (fltb (lit 400) l); [reflexivity|].
  destruct (fltb (lit 400) r); [reflexivity|].
  destruct (fltb l (lit (-400))); [reflexivity|].
  destruct (fltb r (lit (-400))); reflexivity.
Qed.

(** One cycle, spelled out: the velocity command is (0, 0) when paused and
    (desired linear speed, steering output) otherwise; the buttons then act on
    the two operator globals; the gain is never assigned. *)
Lemma loop_eq (i : Inputs) (w : World F) :
  let cmd :=
    if pause w then (lit 0, lit 0)
    else (desired_lin_speed w, rot_speed_of (rot_gain w) (int16 (readLine i))) in
  let out := wheel_speeds (fst cmd) (snd cmd) in
  let v := desired_lin_speed w in
  let v := if button_b i then (v * lit 0.9)%num else v in
  let v := if button_c i then (v * lit 1.1)%num else v in
  loop i w =
  mkWorld (if button_a i then negb (pause w) else pause w) v (rot_gain w)
    (trace w ++ [Alloc (fst cmd) (snd cmd); SetSpeeds (fst out) (snd out)]).
Proof.
  unfold loop.
  destruct (pause w) eqn:Hp; rewrite setLinRotSpeeds_eq; cbn;
    destruct (button_a i), (button_b i), (button_c i); cbn;
    rewrite ?Hp; reflexivity.
Qed.

Lemma loop_no_press (i : Inputs) (w : World F) :
  no_press i ->
  pause (loop i w) = pause w /\
  desired_lin_speed (loop i w) = desired_lin_speed w.
Proof.
  intros (Ha & Hb & Hc). rewrite loop_eq; cbn. now rewrite Ha, Hb, Hc.
Qed.

Lemma run_no_press (cycles : list Inputs) (w : World F) :
  Forall no_press cycles ->
  pause (run cycles w) = pause w /\
  desired_lin_speed (run cycles w) = desired_lin_speed w.
Proof.
  intros Hall; revert w.
  induction Hall as [|i rest Hi _ IH]; intros w; cbn; [tauto|].
  destruct (IH (loop i w)) as [-> ->]. now apply loop_no_press.
Qed.

(** C6: in a cycle that starts with [pause] set, the one call of
    [setLinRotSpeeds] gets the arguments (0, 0), whatever [readLine] returned
    and whatever the gain and the desired speed are. *)
Theorem loop_paused_command (i : Inputs) (w : World F) :
  pause w = true ->
  commands (trace (loop i w)) = commands (trace w) ++ [(lit 0, lit 0)].
Proof.
  intros Hp. rewrite loop_eq, Hp; cbn.
  now rewrite commands_app.
Qed.

(** C7: at process start [pause] is true and the desired linear speed is the
    default 100; one cycle flips [pause] exactly when button A reports a
    press, multiplies the desired speed by 0.9 exactly when B does and by 1.1
    exactly when C does (B before C); cycles without a press change
    neither. *)
Theorem operator_state :
  pause (init : World F) = true /\
  desired_lin_speed (init : World F) = lit 100 /\
  (forall i (w : World F),
     pause (loop i w) = if button_a i then negb (pause w) else pause w) /\
  (forall i (w : World F),
     desired_lin_speed (loop i w) =
     let v := desired_lin_speed w in
     let v := if button_b i then (v * lit 0.9)%num else v in
     if button_c i then (v * lit 1.1)%num else v) /\
  (forall cycles (w : World F),
     Forall no_press cycles ->
     pause (run cycles w) = pause w /\
     desired_lin_speed (run cycles w) = desired_lin_speed w).
Proof.
  repeat split.
  - intros i w. now rewrite loop_eq.
  - intros i w. now rewrite loop_eq.
  - now apply run_no_press.
  - now apply run_no_press.
Qed.

(** C8: the pair [setLinRotSpeeds] sends to the motors is fixed by its two
    arguments alone: the same pair in every world, and the call changes no
    global. *)
Theorem setLinRotSpeeds_deterministic (lin rot : F) :
  exists l r : F, forall w : World F,
    setLinRotSpeeds lin rot w =
    mkWorld (pause w) (desired_lin_speed w) (rot_gain w)
      (trace w ++ [Alloc lin rot; SetSpeeds l r]).
Proof.
  exists (fst (wheel_speeds lin rot)), (snd (wheel_speeds lin rot)).
  intros w. apply setLinRotSpeeds_eq.
Qed.

End AnyArithmetic.

Lemma loop_paused_command_witness :
  pause (init : World Q) = true /\
  commands (trace (loop (mkInputs 3500 false false true) (init : World Q))) =
  [(0, 0)%Q].
Proof.
  split; [reflexivity|].
  exact (loop_paused_command (mkInputs 3500 false false true) init eq_refl).
Defined.

(** ** The rational instance computes what the real one does *)

Section Transfer.
Local Open Scope R_scope.

Lemma Rltb_Q2R (a b : Q) : Rltb (Q2R a) (Q2R b) = Qltb a b.
Proof.
  unfold Rltb, Qltb.
  destruct (Rlt_dec (Q2R a) (Q2R b)) as [Hlt|Hge];
    destruct (Qle_bool b a) eqn:Hle; cbn; try reflexivity; exfalso.
  - apply Qle_bool_iff, Qle_Rle in Hle. lra.
  - apply Hge, Qlt_Rlt, Qnot_le_lt. intros Hba.
    apply Qle_bool_iff in Hba. congruence.
Qed.

Ltac to_Q :=
  cbn [fadd fsub fmul fltb lit Num_R Num_Q];
  rewrite <- ?Q2R_minus, <- ?Q2R_plus, <- ?Q2R_mult, ?Rltb_Q2R.

Lemma constrain_Q2R (l r : Q) :
  constrain (Q2R l) (Q2R r) =
  (Q2R (fst (constrain l r)), Q2R (snd (constrain l r))).
Proof.
  unfold constrain. to_Q.
  repeat match goal with
         | |- context [Qltb ?a ?b] => destruct (Qltb a b); to_Q
         end; reflexivity.
Qed.

Lemma wheel_speeds_Q2R (lin rot : Q) :
  wheel_speeds (Q2R lin) (Q2R rot) =
  (Q2R (fst (wheel_speeds lin rot)), Q2R (snd (wheel_speeds lin rot))).
Proof. unfold wheel_speeds. to_Q. apply constrain_Q2R. Qed.

Lemma setLinRotSpeeds_Q2R (lin rot : Q) (w : World Q) :
  setLinRotSpeeds (Q2R lin) (Q2R rot) (worldR w) =
  worldR (setLinRotSpeeds lin rot w).
Proof.
  rewrite !setLinRotSpeeds_eq, wheel_speeds_Q2R.
  unfold worldR; cbn. now rewrite map_app.
Qed.

Lemma loop_Q2R (i : Inputs) (w : World Q) :
  loop i (worldR w) = worldR (loop i w).
Proof.
  unfold loop.
  replace (rot_speed_of (rot_gain (worldR w)) (int16 (readLine i)))
    with (Q2R (rot_speed_of (rot_gain w) (int16 (readLine i))))
    by (unfold rot_speed_of; cbn; apply Q2R_mult).
  change (pause (worldR w)) with (pause w).
  change (desired_lin_speed (worldR w)) with (Q2R (desired_lin_speed w)).
  change (@lit R _ 0) with (Q2R (@lit Q _ 0)).
  destruct (pause w); rewrite setLinRotSpeeds_Q2R;
    destruct (button_a i), (button_b i), (button_c i);
    unfold worldR, set_pause, set_desired_lin_speed; cbn;
    rewrite <- ?Q2R_mult; reflexivity.
Qed.

Lemma run_Q2R (cycles : list Inputs) (w : World Q) :
  run cycles (worldR w) = worldR (run cycles w).
Proof.
  revert w. induction cycles as [|i rest IH]; intros w; cbn; [reflexivity|].
  now rewrite loop_Q2R, IH.
Qed.

Lemma init_Q2R : worldR init = init.
Proof. reflexivity. Qed.

End Transfer.

(** ** The allocator and the control cycle over the real numbers *)

Section OverReals.
Local Open Scope R_scope.

(** Unfolds the operations of [Num_R] and the literals. *)
Ltac real_arith :=
  cbn [fadd fsub fmul fltb lit Num_R] in *;
  unfold Rltb, Q2R in *; cbn [Qnum Qden] in *.

(** Splits on every comparison left in the goal, closing impossible cases. *)
Ltac split_guards :=
  repeat match goal with
         | |- context [Rlt_dec ?a ?b] => destruct (Rlt_dec a b); try lra
         end.

Ltac allocator :=
  unfold wheel_speeds, constrain, taken, source_order, first_match,
    guard, body, opposite_clamped in *;
  real_arith; split_guards.

Lemma lit_Z (z : Z) : lit (inject_Z z) = IZR z.
Proof. real_arith. cbn. lra. Qed.

Lemma wheel_speeds_1000_100 : wheel_speeds 1000 100 = (400, 600).
Proof. allocator. f_equal; lra. Qed.

(** In exact arithmetic: the pair sent lies in [-400, 400] on both tracks
    exactly when the track tested first on a side is not followed beyond the
    same limit by the other one: the left track above 400 with a positive
    rotation, or below -400 with a negative one, leaves the right track
    outside. *)
Lemma wheel_speeds_in_range_iff (lin rot : R) :
  (-400 <= fst (wheel_speeds lin rot) <= 400 /\
   -400 <= snd (wheel_speeds lin rot) <= 400) <->
  ~ (lin - rot > 400 /\ rot > 0) /\ ~ (lin - rot < -400 /\ rot < 0).
Proof.
  split.
  - intros [Hl Hr]; split; intros [H1 H2]; revert Hl Hr;
      allocator; cbn; lra.
  - intros [H1 H2]. allocator; cbn; lra.
Qed.

(** From process start, after twenty presses of C, a press of A and a reading
    of 1000, the sketch calls [setLinRotSpeeds] with a linear speed of
    100 * 1.1^20 and a rotation of 100, and sends (400, 600). *)
Lemma speed_up_then_run_actuation :
  let w := run speed_up_then_run (init : World R) in
  last (commands (trace w)) (0, 0) = (100 * 1.1 ^ 20, 100) /\
  last (actuations (trace w)) (0, 0) = (400, 600).
Proof.
  intros w; subst w.
  rewrite <- init_Q2R, run_Q2R.
  remember (run speed_up_then_run (init : World Q)) as wq eqn:E.
  vm_compute in E. subst wq.
  cbn [worldR trace map eventR commands actuations last].
  unfold Q2R; cbn [Qnum Qden].
  split; f_equal; lra.
Qed.

(** C1, at the input (1000, 100): the nominal pair is (900, 1100); the first
    guard holds, the right track is shifted to 600, the inner guard only
    looks below -400, and (400, 600) is sent to the motors.  The same pair is
    sent by the sketch itself at the end of [speed_up_then_run]. *)
Theorem setLinRotSpeeds_exceeds_range :
  wheel_speeds 1000 100 = (400, 600) /\ 400 < 600 /\
  (forall w : World R,
     trace (setLinRotSpeeds 1000 100 w) =
     trace w ++ [Alloc 1000 100; SetSpeeds 400 600]) /\
  last (actuations (trace (run speed_up_then_run (init : World R)))) (0, 0) =
  (400, 600).
Proof.
  split; [exact wheel_speeds_1000_100|]. split; [lra|]. split.
  - intros w. rewrite setLinRotSpeeds_eq, wheel_speeds_1000_100. reflexivity.
  - apply speed_up_then_run_actuation.
Qed.

(** C3: when both nominal track speeds lie in [-400, 400], they are what
    [setLinRotSpeeds] sends to the motors. *)
Theorem nominal_in_range_unchanged (lin rot : R) :
  -400 <= lin - rot <= 400 ->
  -400 <= lin + rot <= 400 ->
  wheel_speeds lin rot = (lin - rot, lin + rot) /\
  forall w : World R,
    trace (setLinRotSpeeds lin rot w) =
    trace w ++ [Alloc lin rot; SetSpeeds (lin - rot) (lin + rot)].
Proof.
  intros Hl Hr.
  assert (E : wheel_speeds lin rot = (lin - rot, lin + rot)).
  { allocator. reflexivity. }
  split; [exact E|].
  intros w. now rewrite setLinRotSpeeds_eq, E.
Qed.

Lemma nominal_in_range_unchanged_witness :
  wheel_speeds 100 200 = (100 - 200, 100 + 200) /\
  forall w : World R,
    trace (setLinRotSpeeds 100 200 w) =
    trace w ++ [Alloc 100 200; SetSpeeds (100 - 200) (100 + 200)].
Proof. apply (nominal_in_range_unchanged 100 200); lra. Defined.

(** In exact arithmetic: with no rotation asked for, both tracks get the same
    speed, also when the linear speed is beyond the limits. *)
Theorem straight_stays_straight (lin : R) :
  fst (wheel_speeds lin 0) = snd (wheel_speeds lin 0).
Proof. allocator; cbn; lra. Qed.

(** In exact arithmetic: when a block of the chain runs, the pair sent
    differs by twice the rotation, [right - left = 2 * rot], unless the
    block's inner guard clamps the opposite track too; then the offending
    track sits at the limit it passed and the opposite track at the other
    limit. *)
Theorem clamp_preserves_rotation (lin rot : R) (b : branch) :
  taken (lin - rot) (lin + rot) = Some b ->
  let out := wheel_speeds lin rot in
  if opposite_clamped b (lin - rot) (lin + rot)
  then out = match b with
             | LeftHigh | RightLow => (400, -400)
             | RightHigh | LeftLow => (-400, 400)
             end
  else snd out - fst out = 2 * rot.
Proof.
  intros Hb out; subst out. revert Hb.
  destruct b; allocator; intros Hb; try discriminate Hb; cbn;
    try lra; f_equal; lra.
Qed.

(** C4: the four guards are tried in the order left > 400, right > 400,
    left < -400, right < -400, and the body of the first one that holds is the
    only one that runs.  At (0, 500) the nominal pair (-500, 500) satisfies
    the second and the third guard; the second runs, shifts the left track to
    -600 and clamps it, and (-400, 400) is sent. *)
Theorem ordered_first_match :
  (forall l r : R,
     constrain l r =
     match taken l r with Some b => body b l r | None => (l, r) end) /\
  (forall l r : R, l > 400 -> taken l r = Some LeftHigh) /\
  (forall l r : R, ~ l > 400 -> r > 400 -> taken l r = Some RightHigh) /\
  (forall l r : R,
     ~ l > 400 -> ~ r > 400 -> l < -400 -> taken l r = Some LeftLow) /\
  (forall l r : R,
     ~ l > 400 -> ~ r > 400 -> ~ l < -400 -> r < -400 ->
     taken l r = Some RightLow) /\
  (forall l r : R,
     ~ l > 400 -> ~ r > 400 -> ~ l < -400 -> ~ r < -400 ->
     taken l r = None) /\
  guard RightHigh (0 - 500) (0 + 500) = true /\
  guard LeftLow (0 - 500) (0 + 500) = true /\
  taken (0 - 500) (0 + 500) = Some RightHigh /\
  (0 - 500) - ((0 + 500) - 400) = -600 /\
  wheel_speeds 0 500 = (-400, 400).
Proof.
  split; [exact constrain_taken|].
  repeat split; intros; allocator; try reflexivity; try lra; f_equal; lra.
Qed.

Lemma int16_small (z : Z) : (-32768 <= z < 32768)%Z -> int16 z = z.
Proof. intros Hz. unfold int16. rewrite Z.mod_small; lia. Qed.

Lemma rot_speed_of_eq (g : R) (p : Z) :
  (0 <= p <= 4000)%Z -> rot_speed_of g p = g * - (IZR p - 2000).
Proof.
  intros Hp. unfold rot_speed_of.
  rewrite (int16_small (p - 2000)) by lia.
  rewrite int16_small by lia.
  rewrite lit_Z, opp_IZR, minus_IZR. reflexivity.
Qed.

(** C5: for a line position p in [0, 4000] the rotational speed is
    [g * -(p - 2000)]: 0 at p = 2000 for every gain, 200 at p = 0 and -200 at
    p = 4000 for the gain 0.1; and a cycle that is not paused calls
    [setLinRotSpeeds] with the desired linear speed and this value. *)
Theorem steering_law (g : R) (p : Z) :
  (0 <= p <= 4000)%Z ->
  let r := rot_speed_of g p in
  r = g * - (IZR p - 2000) /\
  (p = 2000%Z -> r = 0) /\
  (g = 0.1 -> p = 0%Z -> r = 200) /\
  (g = 0.1 -> p = 4000%Z -> r = -200) /\
  forall (i : Inputs) (w : World R),
    pause w = false -> rot_gain w = g -> readLine i = p ->
    commands (trace (loop i w)) =
    commands (trace w) ++ [(desired_lin_speed w, r)].
Proof.
  intros Hp r.
  assert (E : r = g * - (IZR p - 2000)) by now apply rot_speed_of_eq.
  split; [exact E|].
  split; [intros ->; rewrite E; lra|].
  split; [intros -> ->; rewrite E; lra|].
  split; [intros -> ->; rewrite E; lra|].
  intros i w Hw Hg Hi.
  rewrite loop_eq, Hw, Hg, Hi.
  rewrite (int16_small p) by lia.
  cbn [fst snd trace]. rewrite commands_app. reflexivity.
Qed.

Lemma steering_law_witness :
  (0 <= 4000 <= 4000)%Z /\ rot_speed_of 0.1 4000 = -200.
Proof.
  assert (Hp : (0 <= 4000 <= 4000)%Z) by lia.
  split; [exact Hp|].
  destruct (steering_law 0.1 4000 Hp) as (_ & _ & _ & H4000 & _).
  apply H4000; reflexivity.
Defined.

Lemma loop_positive (i : Inputs) (w : World R) :
  0 < desired_lin_speed w -> 0 < desired_lin_speed (loop i w).
Proof.
  intros Hw. rewrite loop_eq; cbn [desired_lin_speed].
  destruct (button_b i), (button_c i); real_arith; lra.
Qed.

Lemma loop_forward (i : Inputs) (w : World R) :
  0 < desired_lin_speed w ->
  Forall (fun c => 0 <= fst c) (commands (trace w)) ->
  Forall (fun c => 0 <= fst c) (commands (trace (loop i w))).
Proof.
  intros Hw Hall. rewrite loop_eq; cbn [trace].
  rewrite commands_app. apply Forall_app; split; [exact Hall|].
  cbn [commands]. constructor; [|constructor].
  destruct (pause w); cbn [fst]; real_arith; lra.
Qed.

Lemma run_forward (cycles : list Inputs) (w : World R) :
  0 < desired_lin_speed w ->
  Forall (fun c => 0 <= fst c) (commands (trace w)) ->
  0 < desired_lin_speed (run cycles w) /\
  Forall (fun c => 0 <= fst c) (commands (trace (run cycles w))).
Proof.
  revert w. induction cycles as [|i rest IH]; intros w Hw Hall; cbn [run].
  - split; assumption.
  - apply IH; [now apply loop_positive | now apply loop_forward].
Qed.

(** C9: after any number of cycles from process start, with any readings and
    any presses, the desired linear speed is above zero, and no call of
    [setLinRotSpeeds] made on the way got a negative linear speed. *)
Theorem desired_lin_speed_positive (cycles : list Inputs) :
  0 < desired_lin_speed (run cycles (init : World R)) /\
  Forall (fun c => 0 <= fst c) (commands (trace (run cycles (init : World R)))).
Proof.
  apply run_forward.
  - cbn [init desired_lin_speed]. real_arith. lra.
  - constructor.
Qed.

Lemma feasible_lin_kept_in_range (lin rot : R) :
  -400 <= lin <= 400 -> in_range (wheel_speeds lin rot).
Proof. intros Hlin. unfold in_range. allocator; cbn; lra. Qed.

(** ** Further facts about the allocator *)

(** X2: A linear speed that is itself within [-400, 400] is never sent out of
    range, whatever the rotation. *)
Theorem feasible_lin_in_range (lin rot : R) :
  -400 <= lin <= 400 ->
  -400 <= fst (wheel_speeds lin rot) <= 400 /\
  -400 <= snd (wheel_speeds lin rot) <= 400.
Proof. intros Hlin. allocator; cbn; lra. Qed.

Lemma feasible_lin_in_range_witness :
  -400 <= 300 <= 400 /\
  -400 <= fst (wheel_speeds 300 700) <= 400 /\
  -400 <= snd (wheel_speeds 300 700) <= 400.
Proof.
  assert (H : -400 <= 300 <= 400) by lra.
  split; [exact H|]. exact (feasible_lin_in_range 300 700 H).
Defined.

(** X5: Reversing the command reverses both tracks. *)
Theorem reversed_command (lin rot : R) :
  wheel_speeds (- lin) (- rot) =
  (- fst (wheel_speeds lin rot), - snd (wheel_speeds lin rot)).
Proof. allocator; cbn; f_equal; lra. Qed.

(** X6: Mirroring the rotation of a command whose linear speed is within
    [-400, 400] exchanges the two tracks. *)
Theorem mirrored_command (lin rot : R) :
  -400 <= lin <= 400 ->
  wheel_speeds lin (- rot) =
  (snd (wheel_speeds lin rot), fst (wheel_speeds lin rot)).
Proof. intros Hlin. allocator; cbn; f_equal; lra. Qed.

Lemma mirrored_command_witness :
  -400 <= 300 <= 400 /\
  wheel_speeds 300 (- 700) =
  (snd (wheel_speeds 300 700), fst (wheel_speeds 300 700)).
Proof.
  assert (H : -400 <= 300 <= 400) by lra.
  split; [exact H|]. exact (mirrored_command 300 700 H).
Defined.

(** ** Runs of the control cycle *)

Lemma presses_cons (b : Inputs -> bool) (i : Inputs) (rest : list Inputs) :
  presses b (i :: rest) = if b i then S (presses b rest) else presses b rest.
Proof. unfold presses; cbn. now destruct (b i). Qed.

Lemma lit_09 : @lit R _ 0.9%Q = 0.9.
Proof. real_arith. lra. Qed.

Lemma lit_11 : @lit R _ 1.1%Q = 1.1.
Proof. real_arith. lra. Qed.

Lemma lit_0 : @lit R _ 0%Q = 0.
Proof. real_arith. lra. Qed.

Lemma loop_actuations (i : Inputs) (w : World R) :
  actuations (trace (loop i w)) =
  actuations (trace w) ++
  [if pause w then wheel_speeds 0 0
   else wheel_speeds (desired_lin_speed w)
          (rot_speed_of (rot_gain w) (int16 (readLine i)))].
Proof.
  rewrite loop_eq; cbn [trace]. rewrite actuations_app.
  destruct (pause w); cbn [fst snd actuations]; rewrite ?lit_0;
    now rewrite <- surjective_pairing.
Qed.

Lemma wheel_speeds_0_0 : wheel_speeds 0 0 = (0, 0).
Proof. allocator. f_equal; lra. Qed.

Lemma run_paused (cycles : list Inputs) (w : World R) :
  Forall (fun i => button_a i = false) cycles ->
  pause w = true ->
  Forall (fun a => a = (0, 0)) (actuations (trace w)) ->
  pause (run cycles w) = true /\
  Forall (fun a => a = (0, 0)) (actuations (trace (run cycles w))).
Proof.
  intros Hno; revert w.
  induction Hno as [|i rest Hi _ IH]; intros w Hp Hall; cbn [run].
  - split; assumption.
  - apply IH.
    + rewrite loop_eq; cbn [pause]. now rewrite Hi.
    + rewrite loop_actuations, Hp, wheel_speeds_0_0.
      apply Forall_app; split; [exact Hall|]. now repeat constructor.
Qed.

(** X8: From process start and until button A reports its first press, every pair
    sent to the motors is (0, 0), whatever the line sensor reads and whatever
    B and C do. *)
Theorem stopped_until_first_press (cycles : list Inputs) :
  Forall (fun i => button_a i = false) cycles ->
  pause (run cycles (init : World R)) = true /\
  Forall (fun a => a = (0, 0))
    (actuations (trace (run cycles (init : World R)))).
Proof.
  intros Hno. apply run_paused; [exact Hno | reflexivity | constructor].
Qed.

Lemma stopped_until_first_press_witness :
  Forall (fun i => button_a i = false)
    [mkInputs 3000 false false true; mkInputs 0 false true false] /\
  pause (run [mkInputs 3000 false false true; mkInputs 0 false true false]
           (init : World R)) = true /\
  Forall (fun a => a = (0, 0))
    (actuations
       (trace (run [mkInputs 3000 false false true; mkInputs 0 false true false]
                 (init : World R)))).
Proof.
  assert (H : Forall (fun i => button_a i = false)
                [mkInputs 3000 false false true; mkInputs 0 false true false])
    by (repeat constructor).
  split; [exact H|]. exact (stopped_until_first_press _ H).
Defined.

Lemma pow_11_ge_1 (n : nat) : 1 <= 1.1 ^ n.
Proof. apply pow_R1_Rle. lra. Qed.

Lemma run_in_range (cycles : list Inputs) (w : World R) :
  0 < desired_lin_speed w ->
  desired_lin_speed w * 1.1 ^ presses button_c cycles <= 400 ->
  Forall in_range (actuations (trace w)) ->
  Forall in_range (actuations (trace (run cycles w))).
Proof.
  revert w. induction cycles as [|i rest IH]; intros w Hpos Hle Hall;
    cbn [run]; [exact Hall|].
  rewrite presses_cons in Hle.
  pose proof (pow_11_ge_1 (presses button_c rest)) as Hn.
  set (P := 1.1 ^ presses button_c rest) in *.
  assert (Hd : desired_lin_speed w <= 400).
  { destruct (button_c i); cbn [pow] in Hle; fold P in Hle; nra. }
  apply IH.
  - now apply loop_positive.
  - rewrite loop_eq; cbn [desired_lin_speed]. rewrite lit_09, lit_11.
    fold P.
    destruct (button_b i), (button_c i); cbn [pow fmul Num_R] in *;
      fold P in Hle; nra.
  - rewrite loop_actuations. apply Forall_app; split; [exact Hall|].
    constructor; [|constructor].
    destruct (pause w); apply feasible_lin_kept_in_range; lra.
Qed.

Lemma fifteen_presses_actuation :
  last (actuations (trace (run fifteen_presses_then_run (init : World R))))
    (0, 0) = (400, 420).
Proof.
  rewrite <- init_Q2R, run_Q2R.
  remember (run fifteen_presses_then_run (init : World Q)) as wq eqn:E.
  vm_compute in E. subst wq.
  cbn [worldR trace map eventR actuations last].
  unfold Q2R; cbn [Qnum Qden].
  f_equal; lra.
Qed.

(** X10: With at most fourteen presses of C since process start, every pair sent
    to the motors is within [-400, 400] on both tracks, whatever else was
    pressed and read; the run [fifteen_presses_then_run], with fifteen
    presses, ends by sending (400, 420), in exact arithmetic and on binary32
    alike. *)
Theorem in_range_up_to_fourteen_presses :
  (forall cycles : list Inputs,
     (presses button_c cycles <= 14)%nat ->
     Forall in_range (actuations (trace (run cycles (init : World R))))) /\
  presses button_c fifteen_presses_then_run = 15%nat /\
  last (actuations (trace (run fifteen_presses_then_run (init : World R))))
    (0, 0) = (400, 420) /\
  ~ in_range (400, 420) /\
  last (actuations
          (trace (run fifteen_presses_then_run (init : World spec_float))))
    (lit 0, lit 0) = (lit 400, lit 420).
Proof.
  split; [|split; [|split; [|split]]].
  - intros cycles Hc. apply run_in_range.
    + cbn [init desired_lin_speed]. real_arith. lra.
    + cbn [init desired_lin_speed].
      assert (Hmono : 1.1 ^ presses button_c cycles <= 1.1 ^ 14)
        by (apply Rle_pow; [lra | exact Hc]).
      real_arith. lra.
    + constructor.
  - reflexivity.
  - exact fifteen_presses_actuation.
  - intros [_ [_ Hr]]. cbn in Hr. lra.
  - vm_compute. reflexivity.
Qed.

End OverReals.

(** ** The shape of a run's calls, for every arithmetic *)

Section RunTrace.
Context {F : Type} `{Num F}.

(** X11: A run keeps the calls made before it and adds, for each cycle, one call
    of [setLinRotSpeeds] followed by one [motors.setSpeeds] with the
    allocator's pair for that very command. *)
Theorem one_call_per_cycle (cycles : list Inputs) (w : World F) :
  exists cmds : list (F * F),
    length cmds = length cycles /\
    trace (run cycles w) = trace w ++ flat_map call cmds.
Proof.
  revert w. induction cycles as [|i rest IH]; intros w; cbn [run].
  - exists []. cbn. now rewrite app_nil_r.
  - destruct (IH (loop i w)) as (cmds & Hlen & Ht).
    set (c := if pause w then (lit 0, lit 0)
              else (desired_lin_speed w,
                    rot_speed_of (rot_gain w) (int16 (readLine i)))).
    assert (Hl : trace (loop i w) = trace w ++ call c)
      by (rewrite loop_eq; reflexivity).
    exists (c :: cmds).
    split; [cbn; now rewrite Hlen|].
    rewrite Ht, Hl, <- app_assoc. reflexivity.
Qed.

(** X7: After any run [pause] has flipped once per press of A, the gain is the
    one at the start, and the desired linear speed is the one at the start
    with the steps of B and C applied cycle by cycle in the order of the
    run: no reading of the line and no state of [pause] enters it. *)
Theorem operator_state_after_run (cycles : list Inputs) (w : World F) :
  pause (run cycles w) =
    (if Nat.even (presses button_a cycles) then pause w else negb (pause w)) /\
  rot_gain (run cycles w) = rot_gain w /\
  desired_lin_speed (run cycles w) =
    fold_left adjust cycles (desired_lin_speed w).
Proof.
  revert w. induction cycles as [|i rest IH]; intros w.
  - cbn. repeat split.
  - cbn [run fold_left]. destruct (IH (loop i w)) as (Hp & Hg & Hd).
    rewrite Hp, Hg, Hd, presses_cons, loop_eq.
    cbn [desired_lin_speed pause rot_gain]. repeat split.
    destruct (button_a i); [|reflexivity].
    rewrite Nat.even_succ, <- Nat.negb_even.
    destruct (Nat.even (presses button_a rest)), (pause w); reflexivity.
Qed.

End RunTrace.

(** ** The bar display *)

Section DisplayFacts.
Local Open Scope Z_scope.

Lemma picture_at_small (i : nat) :
  (i < 7)%nat ->
  picture_at i = repeat 0 (7 - i) ++ repeat 63 (S i) /\
  loaded (Z.of_nat i) loadCustomCharacters = Some (picture_at i).
Proof.
  intros Hi.
  do 7 (destruct i as [|i]; [split; reflexivity|]). lia.
Qed.

(** X12: The seven pictures are read from inside the 14-byte table, and 7 is the
    first offset at which the eight-byte read would leave it.  Character
    number i, for i = 0 .. 6, is loaded with 7 - i empty rows above i + 1
    filled ones. *)
Theorem custom_characters (i : nat) :
  (length (picture_at i) = 8%nat <-> (i < 7)%nat) /\
  ((i < 7)%nat ->
   loaded (Z.of_nat i) loadCustomCharacters =
   Some (repeat 0 (7 - i) ++ repeat 63 (S i))).
Proof.
  split; [split|].
  - intros Hlen. unfold picture_at in Hlen.
    rewrite length_firstn, length_skipn in Hlen. cbn [levels length] in Hlen.
    lia.
  - intros Hi. destruct (picture_at_small i Hi) as [-> _].
    rewrite length_app, !repeat_length. lia.
  - intros Hi. destruct (picture_at_small i Hi) as [E ->]. now rewrite E.
Qed.

Lemma uint8_range (z : Z) : 0 <= uint8 z < 256.
Proof. unfold uint8. apply Z.mod_pos_bound. lia. Qed.

Lemma printBar_small (h : Z) :
  0 <= h <= 8 ->
  exists c, nth_error barChars (Z.to_nat h) = Some c /\
            bars_shown c = Some (Z.to_nat h).
Proof.
  intros Hh.
  assert (Hc : h = 0 \/ h = 1 \/ h = 2 \/ h = 3 \/ h = 4 \/ h = 5 \/ h = 6
               \/ h = 7 \/ h = 8) by lia.
  repeat (destruct Hc as [->|Hc]; [eexists; split; reflexivity|]).
  subst h. eexists; split; reflexivity.
Qed.

(** X13: [printBar] prints one character for every argument, never indexing past
    [barChars], and the character shows as many bars as the argument taken as
    a [uint8_t] says, eight at most. *)
Theorem printBar_bars (height : Z) :
  exists c : Z,
    printBar height = Some (PrintChar c) /\
    bars_shown c = Some (Z.to_nat (Z.min (uint8 height) 8)).
Proof.
  unfold printBar. pose proof (uint8_range height) as Hu.
  destruct (8 <? uint8 height) eqn:Hgt.
  - apply Z.ltb_lt in Hgt. rewrite Z.min_r by lia.
    exists 255. split; reflexivity.
  - apply Z.ltb_ge in Hgt. rewrite Z.min_l by lia.
    destruct (printBar_small (uint8 height)) as (c & Hc & Hb); [lia|].
    exists c. now rewrite Hc.
Qed.

Lemma int32_small (z : Z) : -2147483648 <= z < 2147483648 -> int32 z = z.
Proof. intros Hz. unfold int32. rewrite Z.mod_small; lia. Qed.

Lemma arduino_map_reading (x : Z) :
  0 <= x <= 65535 -> arduino_map x 0 1000 0 8 = 8 * x / 1000.
Proof.
  intros Hx. unfold arduino_map.
  rewrite Z.sub_0_r, (int32_small x) by lia.
  change (int32 (8 - 0)) with 8. change (int32 (1000 - 0)) with 1000.
  rewrite (int32_small (x * 8)) by lia.
  rewrite Z.quot_div_nonneg by lia.
  assert (Hq : 0 <= x * 8 / 1000 <= 524280).
  { split; [apply Z.div_pos; lia|].
    apply Z.div_le_upper_bound; lia. }
  rewrite (int32_small (x * 8 / 1000)) by lia.
  rewrite Z.add_0_r, int32_small by lia.
  now rewrite (Z.mul_comm x 8).
Qed.

(** X14: For a calibrated reading x in [0, 1000] the bar has [8 * x / 1000]
    steps, rounded down: between 0 and 8, never fewer for a larger reading,
    and the full bar of 8 only at 1000 itself. *)
Theorem barHeight_calibrated (x y : Z) :
  0 <= x <= y -> y <= 1000 ->
  barHeight x = 8 * x / 1000 /\
  0 <= barHeight x <= 8 /\
  barHeight x <= barHeight y /\
  (barHeight x = 8 <-> x = 1000).
Proof.
  intros Hxy Hy.
  assert (Hb : forall z, 0 <= z <= 1000 ->
                barHeight z = 8 * z / 1000 /\ 0 <= 8 * z / 1000 <= 8).
  { intros z Hz. unfold barHeight. rewrite arduino_map_reading by lia.
    assert (0 <= 8 * z / 1000 <= 8).
    { split; [apply Z.div_pos; lia|]. apply Z.div_le_upper_bound; lia. }
    unfold uint8. rewrite Z.mod_small by lia. split; lia. }
  destruct (Hb x) as [Ex Rx]; [lia|]. destruct (Hb y) as [Ey Ry]; [lia|].
  rewrite Ex, Ey. repeat split; try lia.
  - apply Z.div_le_mono; lia.
  - intros E8.
    assert (8 * 1000 <= 8 * x); [|lia].
    rewrite <- E8 at 1. rewrite Z.mul_comm. apply Z.mul_div_le. lia.
  - intros ->. reflexivity.
Qed.

Lemma barHeight_calibrated_witness :
  0 <= 124 <= 125 /\ 125 <= 1000 /\
  barHeight 124 = 8 * 124 / 1000 /\
  0 <= barHeight 124 <= 8 /\
  barHeight 124 <= barHeight 125 /\
  (barHeight 124 = 8 <-> 124 = 1000).
Proof.
  assert (H1 : 0 <= 124 <= 125) by lia.
  assert (H2 : 125 <= 1000) by lia.
  split; [exact H1|]. split; [exact H2|].
  exact (barHeight_calibrated 124 125 H1 H2).
Defined.

Lemma barHeight_uint8 (x : Z) : uint8 (barHeight x) = barHeight x.
Proof. unfold barHeight, uint8. apply Z.mod_mod. lia. Qed.

(** X15: For any 16-bit reading the bar shown has [(8 * x / 1000) mod 256] steps,
    cut at 8: the step count passes through a [uint8_t] before it is
    limited, so a reading from 32000 to 32124 is shown as an empty bar. *)
Theorem reading_bars (x : Z) :
  0 <= x <= 65535 ->
  exists c : Z,
    printBar (barHeight x) = Some (PrintChar c) /\
    bars_shown c = Some (Z.to_nat (Z.min ((8 * x / 1000) mod 256) 8)) /\
    (32000 <= x <= 32124 -> bars_shown c = Some 0%nat).
Proof.
  intros Hx.
  destruct (printBar_bars (barHeight x)) as (c & Hc & Hb).
  rewrite barHeight_uint8 in Hb.
  assert (E : barHeight x = (8 * x / 1000) mod 256).
  { unfold barHeight. now rewrite arduino_map_reading by lia. }
  rewrite E in Hb.
  exists c. split; [exact Hc|]. split; [exact Hb|].
  intros Hw. rewrite Hb.
  assert (E256 : 8 * x / 1000 = 256).
  { assert (8 * x / 1000 < 257) by (apply Z.div_lt_upper_bound; lia).
    assert (256 <= 8 * x / 1000) by (apply Z.div_le_lower_bound; lia).
    lia. }
  now rewrite E256.
Qed.

Lemma reading_bars_witness :
  0 <= 32000 <= 65535 /\
  exists c : Z,
    printBar (barHeight 32000) = Some (PrintChar c) /\
    bars_shown c = Some (Z.to_nat (Z.min ((8 * 32000 / 1000) mod 256) 8)) /\
    (32000 <= 32000 <= 32124 -> bars_shown c = Some 0%nat).
Proof.
  assert (H : 0 <= 32000 <= 65535) by lia.
  split; [exact H|]. exact (reading_bars 32000 H).
Defined.

(** What the bar of one reading looks like on the display. *)
Lemma print_bars_five (a b c d e : Z) (rest : list Z) :
  exists ca cb cc cd ce : Z,
    print_bars (seq 0 5) (a :: b :: c :: d :: e :: rest) =
    Some (List.map PrintChar [ca; cb; cc; cd; ce]) /\
    Forall2 (fun x ch => bars_shown ch = Some (Z.to_nat (Z.min (barHeight x) 8)))
      [a; b; c; d; e] [ca; cb; cc; cd; ce].
Proof.
  destruct (printBar_bars (barHeight a)) as (ca & Ea & Ha).
  destruct (printBar_bars (barHeight b)) as (cb & Eb & Hb).
  destruct (printBar_bars (barHeight c)) as (cc & Ec & Hc).
  destruct (printBar_bars (barHeight d)) as (cd & Ed & Hd).
  destruct (printBar_bars (barHeight e)) as (ce & Ee & He).
  rewrite barHeight_uint8 in Ha, Hb, Hc, Hd, He.
  exists ca, cb, cc, cd, ce. split.
  - cbn [seq print_bars nth_error]. now rewrite Ea, Eb, Ec, Ed, Ee.
  - repeat constructor; assumption.
Qed.

Lemma printReadingsToLCD_five_aux (readings : list Z) :
  (5 <= length readings)%nat ->
  exists cs : list Z,
    printReadingsToLCD readings = Some (GotoXY 0 0 :: List.map PrintChar cs) /\
    Forall2
      (fun x ch => bars_shown ch = Some (Z.to_nat (Z.min (barHeight x) 8)))
      (firstn 5 readings) cs.
Proof.
  intros Hlen. unfold printReadingsToLCD.
  destruct readings as [|a [|b [|c [|d [|e rest]]]]]; cbn [length] in Hlen;
    try lia.
  destruct (print_bars_five a b c d e rest)
    as (ca & cb & cc & cd & ce & E & HF).
  rewrite E. exists [ca; cb; cc; cd; ce]. split; [reflexivity|exact HF].
Qed.

(** X16: [printReadingsToLCD] needs five readings: with fewer it reads past the
    array.  With five or more it moves to the top left corner and prints
    exactly five characters, the bars of the first five readings in order,
    and ignores the rest. *)
Theorem printReadingsToLCD_five (readings : list Z) :
  (printReadingsToLCD readings = None <-> (length readings < 5)%nat) /\
  ((5 <= length readings)%nat ->
   exists cs : list Z,
     printReadingsToLCD readings = Some (GotoXY 0 0 :: List.map PrintChar cs) /\
     Forall2
       (fun x ch => bars_shown ch = Some (Z.to_nat (Z.min (barHeight x) 8)))
       (firstn 5 readings) cs).
Proof.
  unfold printReadingsToLCD.
  destruct readings as [|a [|b [|c [|d [|e rest]]]]].
  6: { destruct (print_bars_five a b c d e rest)
         as (ca & cb & cc & cd & ce & E & HF).
       rewrite E. split.
       - split; [discriminate | cbn [length]; lia].
       - intros _. exists [ca; cb; cc; cd; ce]. split; [reflexivity|exact HF]. }
  all: split; [|cbn [length]; lia].
  all: split; [cbn [length]; lia | intros _].
  all: cbn [seq print_bars nth_error].
  all: repeat match goal with
         | |- context [printBar (barHeight ?x)] =>
             let ch := fresh "ch" in let E := fresh "E" in
             destruct (printBar_bars (barHeight x)) as (ch & E & _);
             rewrite E
         end.
  all: reflexivity.
Qed.

Lemma printReadingsToLCD_length (readings : list Z) :
  (5 <= length readings)%nat ->
  exists shown, printReadingsToLCD readings = Some shown /\
                length shown = 6%nat.
Proof.
  intros Hlen.
  destruct (printReadingsToLCD_five_aux readings Hlen) as (cs & E & HF).
  exists (GotoXY 0 0 :: List.map PrintChar cs). split; [exact E|].
  apply Forall2_length in HF.
  rewrite length_firstn in HF. cbn [length]. rewrite length_map. lia.
Qed.

(** ** The calibration loop *)

Lemma calibrations_cons_lcd (shown : list lcd_event) (t : list setup_event) :
  calibrations (List.map Lcd shown ++ t) = calibrations t.
Proof.
  unfold calibrations. induction shown as [|e shown IH]; cbn; [reflexivity|].
  exact IH.
Qed.

(** X17: The loop of [setup] is left at the first poll of button A that reports a
    press, after one [calibrate], one [readCalibrated] and one bar display
    (six calls on the display) for each poll before it, none if the very
    first poll reports the press; the polls after the press are left for
    [loop].  While no poll reports a press the loop is not left. *)
Theorem calibration_loop_until_press (polls : list Poll) :
  Forall (fun p => (5 <= length (calibrated p))%nat) polls ->
  let n := length (before_press polls) in
  (Exists (fun p => pressed p = true) polls ->
   exists t : list setup_event,
     calibration_loop polls = Some (t, skipn (S n) polls) /\
     calibrations t = n /\ length t = (8 * n)%nat) /\
  (Forall (fun p => pressed p = false) polls ->
   calibration_loop polls = None).
Proof.
  intros Hlen. induction Hlen as [|p rest Hp _ IH]; cbn zeta.
  - split; [intros Hex; inversion Hex | reflexivity].
  - cbn [before_press calibration_loop]. destruct (pressed p) eqn:Ep.
    + split.
      * intros _. exists []. repeat split.
      * intros Hall. inversion Hall; congruence.
    + destruct (printReadingsToLCD_length (calibrated p) Hp)
        as (shown & Eshown & Lshown).
      rewrite Eshown. cbn zeta in IH. destruct IH as [IHsome IHnone]. split.
      * intros Hex. inversion Hex as [? ? Hhere|? ? Hlater]; subst;
          [congruence|].
        destruct (IHsome Hlater) as (t & Et & Ct & Lt).
        rewrite Et.
        exists (Calibrate :: ReadCalibrated :: List.map Lcd shown ++ t).
        split; [reflexivity|]. split.
        -- change (calibrations
                     (Calibrate :: ReadCalibrated :: List.map Lcd shown ++ t))
             with (S (calibrations (List.map Lcd shown ++ t))).
           rewrite calibrations_cons_lcd, Ct. reflexivity.
        -- cbn [length]. rewrite length_app, length_map, Lshown, Lt. lia.
      * intros Hall. inversion Hall; subst.
        rewrite IHnone by assumption. reflexivity.
Qed.

Lemma calibration_loop_until_press_witness :
  Forall (fun p => (5 <= length (calibrated p))%nat)
    [mkPoll false [0; 500; 1000; 250; 999]; mkPoll true [0; 0; 0; 0; 0];
     mkPoll false [1; 2; 3; 4; 5]] /\
  exists t : list setup_event,
    calibration_loop
      [mkPoll false [0; 500; 1000; 250; 999]; mkPoll true [0; 0; 0; 0; 0];
       mkPoll false [1; 2; 3; 4; 5]] =
    Some (t, [mkPoll false [1; 2; 3; 4; 5]]) /\
    calibrations t = 1%nat /\ length t = 8%nat.
Proof.
  assert (H : Forall (fun p => (5 <= length (calibrated p))%nat)
                [mkPoll false [0; 500; 1000; 250; 999];
                 mkPoll true [0; 0; 0; 0; 0];
                 mkPoll false [1; 2; 3; 4; 5]])
    by (repeat constructor).
  split; [exact H|].
  apply (calibration_loop_until_press _ H).
  apply Exists_cons_tl, Exists_cons_hd. reflexivity.
Defined.

End DisplayFacts.

(** ** The allocator on binary32 *)

Section Binary32.
Local Open Scope Z_scope.

(** *** Exact results of the float operations *)

Lemma digits2_size (p : positive) : digits2_pos p = Pos.size p.
Proof. induction p; cbn; congruence. Qed.

Lemma digits2_log2 (p : positive) : Zpos (digits2_pos p) = Z.log2 (Zpos p) + 1.
Proof.
  rewrite digits2_size. destruct p; cbn; lia.
Qed.

Lemma digits2_mul_pow2 (p q : positive) (k : Z) :
  0 <= k -> Zpos q = Zpos p * 2 ^ k ->
  Zpos (digits2_pos q) = Zpos (digits2_pos p) + k.
Proof.
  intros Hk E. rewrite !digits2_log2, E, Z.log2_mul_pow2 by lia. lia.
Qed.

Lemma digits2_bounds (p : positive) :
  2 ^ (Zpos (digits2_pos p) - 1) <= Zpos p < 2 ^ Zpos (digits2_pos p).
Proof.
  rewrite digits2_log2. replace (Z.log2 (Z.pos p) + 1 - 1) with (Z.log2 (Zpos p)) by lia.
  replace (Z.log2 (Z.pos p) + 1) with (Z.succ (Z.log2 (Zpos p))) by lia.
  apply Z.log2_spec. lia.
Qed.

Lemma iter_xO_pow2 (p n : positive) : Zpos (Pos.iter xO p n) = Zpos p * 2 ^ Zpos n.
Proof.
  induction n as [|n IH] using Pos.peano_ind.
  - cbn. lia.
  - rewrite Pos.iter_succ, Pos2Z.inj_succ, Z.pow_succ_r by lia.
    rewrite Pos2Z.inj_xO, IH. lia.
Qed.

Lemma shl_align_le (m : positive) (e e' : Z) :
  e' <= e ->
  exists m', shl_align m e e' = (m', e') /\ Zpos m' = Zpos m * 2 ^ (e - e').
Proof.
  intros Hle. unfold shl_align. destruct (e' - e) as [|d|d] eqn:E.
  - exists m. assert (e' = e) by lia. subst. rewrite Z.sub_diag. split; [reflexivity|cbn; lia].
  - lia.
  - exists (Pos.iter xO m d). split; [reflexivity|].
    rewrite iter_xO_pow2. f_equal. f_equal. lia.
Qed.

Lemma shl_align_ge (m : positive) (e e' : Z) :
  e <= e' -> shl_align m e e' = (m, e).
Proof.
  intros Hle. unfold shl_align. destruct (e' - e) eqn:E; try reflexivity. lia.
Qed.

Lemma iter_pos_nat {A : Type} (f : A -> A) (p : positive) (x : A) :
  iter_pos f p x = Nat.iter (Pos.to_nat p) f x.
Proof.
  revert x. induction p as [p IH|p IH|]; intros x; cbn [iter_pos].
  - rewrite !IH, Pos2Nat.inj_xI. cbn [Nat.mul].
    rewrite Nat.add_0_r. rewrite <- Nat.iter_succ_r, <- Nat.iter_add.
    f_equal. lia.
  - rewrite !IH, Pos2Nat.inj_xO. cbn [Nat.mul].
    rewrite Nat.add_0_r, <- Nat.iter_add. reflexivity.
  - reflexivity.
Qed.

Lemma shr_1_exact_nat (n : nat) (N : positive) (q : positive) :
  Zpos q = Zpos N * 2 ^ Z.of_nat n ->
  Nat.iter n shr_1 (Build_shr_record (Zpos q) false false) =
  Build_shr_record (Zpos N) false false.
Proof.
  revert q. induction n as [|n IH]; intros q E.
  - cbn in *. f_equal. lia.
  - rewrite Nat.iter_succ_r.
    rewrite Nat2Z.inj_succ, Z.pow_succ_r in E by lia.
    destruct q as [q|q|]; try lia.
    cbn [shr_1 orb]. apply IH. lia.
Qed.

Lemma shr_exact (N q : positive) (e n : Z) :
  0 < n -> Zpos q = Zpos N * 2 ^ n ->
  shr (Build_shr_record (Zpos q) false false) e n =
  (Build_shr_record (Zpos N) false false, e + n).
Proof.
  intros Hn E. destruct n as [|p|p]; try lia.
  unfold shr. rewrite iter_pos_nat. f_equal.
  apply shr_1_exact_nat. now rewrite positive_nat_Z.
Qed.



Lemma binary_round_aux_canonical (s : bool) (N : positive) (e : Z) :
  canonical32 N e -> e <= 104 ->
  binary_round_aux 24 128 s (Zpos N) e loc_Exact = S754_finite s N e.
Proof.
  intros Hc He. unfold binary_round_aux, shr_fexp.
  cbn [Zdigits2 shr_record_of_loc].
  rewrite Hc, Z.sub_diag. cbn [shr shr_m loc_of_shr_record round_nearest_even Zdigits2].
  rewrite Hc, Z.sub_diag. cbn [shr shr_m].
  replace (e <=? 128 - 24) with true by (symmetry; apply Z.leb_le; lia).
  reflexivity.
Qed.

Lemma binary_round_aux_shift (s : bool) (M N : positive) (e n : Z) :
  0 < n -> Zpos M = Zpos N * 2 ^ n ->
  canonical32 N (e + n) -> e + n <= 104 ->
  binary_round_aux 24 128 s (Zpos M) e loc_Exact = S754_finite s N (e + n).
Proof.
  intros Hn E Hc He.
  assert (Hd : Zpos (digits2_pos M) = Zpos (digits2_pos N) + n)
    by (apply digits2_mul_pow2; [lia|exact E]).
  unfold binary_round_aux, shr_fexp.
  cbn [Zdigits2 shr_record_of_loc].
  replace (fexp 24 128 (Zpos (digits2_pos M) + e) - e) with n
    by (unfold canonical32 in Hc; rewrite Hd;
        replace (Zpos (digits2_pos N) + n + e)
          with (Zpos (digits2_pos N) + (e + n)) by lia; lia).
  rewrite (shr_exact N M e n Hn E).
  cbn [shr_m loc_of_shr_record round_nearest_even Zdigits2].
  rewrite Hc, Z.sub_diag. cbn [shr shr_m].
  replace (e + n <=? 128 - 24) with true by (symmetry; apply Z.leb_le; lia).
  reflexivity.
Qed.

Lemma binary_round_canonical (s : bool) (p N : positive) (ez en : Z) :
  canonical32 N en -> en <= 104 ->
  Zpos (digits2_pos p) + ez = Zpos (digits2_pos N) + en ->
  (en <= ez -> Zpos N = Zpos p * 2 ^ (ez - en)) ->
  (ez <= en -> Zpos p = Zpos N * 2 ^ (en - ez)) ->
  binary_round 24 128 s p ez = S754_finite s N en.
Proof.
  intros Hc He Hd Hshl Hshr. unfold binary_round.
  rewrite Hd. unfold canonical32 in Hc. rewrite Hc.
  destruct (Z_lt_le_dec en ez) as [Hlt|Hge].
  - destruct (shl_align_le p ez en) as (p' & -> & Ep'); [lia|].
    assert (p' = N) by (specialize (Hshl ltac:(lia)); lia). subst p'.
    now apply binary_round_aux_canonical.
  - rewrite shl_align_ge by lia.
    destruct (Z.eq_dec ez en) as [->|Hne].
    + assert (p = N) by (specialize (Hshr ltac:(lia)); rewrite Z.sub_diag in Hshr; cbn in Hshr; lia).
      subst p. now apply binary_round_aux_canonical.
    + replace en with (ez + (en - ez)) by lia.
      apply binary_round_aux_shift;
        [lia | apply Hshr; lia | | lia].
      unfold canonical32. replace (ez + (en - ez)) with en by lia. exact Hc.
Qed.

(** A nonzero integer times a power of two whose value is that of a float
    is normalised to that float.  Values are compared in units of 2^-149. *)
Lemma normalize_canonical (s : bool) (Mz : Z) (N : positive) (ez en : Z) :
  0 < Mz -> -149 <= ez -> -149 <= en ->
  canonical32 N en -> en <= 104 ->
  Mz * 2 ^ (ez + 149) = Zpos N * 2 ^ (en + 149) ->
  binary_normalize 24 128 (cond_Zopp s Mz) ez false = S754_finite s N en.
Proof.
  intros HM Hez Hen Hc He E.
  destruct Mz as [|p|p]; try lia.
  replace (binary_normalize 24 128 (cond_Zopp s (Zpos p)) ez false)
    with (binary_round 24 128 s p ez) by (destruct s; reflexivity).
  apply binary_round_canonical; try assumption.
  - assert (L : Z.log2 (Zpos p * 2 ^ (ez + 149)) = Z.log2 (Zpos N * 2 ^ (en + 149)))
      by now rewrite E.
    rewrite !Z.log2_mul_pow2 in L by lia.
    rewrite !digits2_log2. lia.
  - intros Hle.
    replace (ez + 149) with ((ez - en) + (en + 149)) in E by lia.
    rewrite (Z.pow_add_r 2 (ez - en) (en + 149)), Z.mul_assoc in E by lia.
    apply Z.mul_reg_r in E; [lia|].
    apply Z.pow_nonzero; lia.
  - intros Hle.
    replace (en + 149) with ((en - ez) + (ez + 149)) in E by lia.
    rewrite (Z.pow_add_r 2 (en - ez) (ez + 149)), Z.mul_assoc in E by lia.
    apply Z.mul_reg_r in E; [lia|].
    apply Z.pow_nonzero; lia.
Qed.

Lemma pow2_add (a b : Z) : 0 <= a -> 0 <= b -> 2 ^ (a + b) = 2 ^ a * 2 ^ b.
Proof. intros. now apply Z.pow_add_r. Qed.

Lemma pow2_pos (a : Z) : 0 <= a -> 0 < 2 ^ a.
Proof. intros. apply Z.pow_pos_nonneg; lia. Qed.

(** Subtraction of two floats of the same sign, the first the larger in
    magnitude, when the exact difference is a float. *)
Lemma SFsub_exact (s : bool) (m my N : positive) (e ey en : Z) :
  -149 <= e -> -149 <= ey -> -149 <= en ->
  canonical32 N en -> en <= 104 ->
  Zpos m * 2 ^ (e + 149) - Zpos my * 2 ^ (ey + 149) = Zpos N * 2 ^ (en + 149) ->
  SFsub 24 128 (S754_finite s m e) (S754_finite s my ey) = S754_finite s N en.
Proof.
  intros He Hey Hen Hc Hle E. cbn [SFsub].
  set (ez := Z.min e ey).
  destruct (shl_align_le m e ez) as (m' & -> & Em); [lia|].
  destruct (shl_align_le my ey ez) as (my' & -> & Emy); [lia|].
  cbn [fst].
  replace (cond_Zopp s (Zpos m') - cond_Zopp s (Zpos my'))
    with (cond_Zopp s (Zpos m' - Zpos my')) by (destruct s; cbn [cond_Zopp]; lia).
  assert (Ev : (Zpos m' - Zpos my') * 2 ^ (ez + 149) = Zpos N * 2 ^ (en + 149)).
  { rewrite <- E, Em, Emy, Z.mul_sub_distr_r, <- !Z.mul_assoc.
    rewrite <- !pow2_add by lia. f_equal; f_equal; f_equal; lia. }
  apply normalize_canonical; try assumption; try lia.
  assert (0 < 2 ^ (ez + 149)) by (apply pow2_pos; lia).
  assert (0 < Zpos N * 2 ^ (en + 149)) by (apply Z.mul_pos_pos; [lia|apply pow2_pos; lia]).
  nia.
Qed.

(** Addition of two floats of opposite signs, the first the larger in
    magnitude, when the exact sum is a float. *)
Lemma SFadd_opp_exact (s : bool) (m my N : positive) (e ey en : Z) :
  -149 <= e -> -149 <= ey -> -149 <= en ->
  canonical32 N en -> en <= 104 ->
  Zpos m * 2 ^ (e + 149) - Zpos my * 2 ^ (ey + 149) = Zpos N * 2 ^ (en + 149) ->
  SFadd 24 128 (S754_finite s m e) (S754_finite (negb s) my ey) = S754_finite s N en.
Proof.
  intros He Hey Hen Hc Hle E. cbn [SFadd].
  set (ez := Z.min e ey).
  destruct (shl_align_le m e ez) as (m' & -> & Em); [lia|].
  destruct (shl_align_le my ey ez) as (my' & -> & Emy); [lia|].
  cbn [fst].
  replace (cond_Zopp s (Zpos m') + cond_Zopp (negb s) (Zpos my'))
    with (cond_Zopp s (Zpos m' - Zpos my')) by (destruct s; cbn [cond_Zopp negb]; lia).
  assert (Ev : (Zpos m' - Zpos my') * 2 ^ (ez + 149) = Zpos N * 2 ^ (en + 149)).
  { rewrite <- E, Em, Emy, Z.mul_sub_distr_r, <- !Z.mul_assoc.
    rewrite <- !pow2_add by lia. f_equal; f_equal; f_equal; lia. }
  apply normalize_canonical; try assumption; try lia.
  assert (0 < 2 ^ (ez + 149)) by (apply pow2_pos; lia).
  assert (0 < Zpos N * 2 ^ (en + 149)) by (apply Z.mul_pos_pos; [lia|apply pow2_pos; lia]).
  nia.
Qed.

Lemma fexp_eq (x : Z) : fexp 24 128 x = Z.max (x - 24) (-149).
Proof. reflexivity. Qed.

(** A float above 400 and below 2^28, less 400, is a float. *)
Lemma minus_400_representable (m : positive) (e : Z) :
  2 ^ 23 <= Zpos m < 2 ^ 24 -> -15 <= e <= 4 ->
  13107200 < Zpos m * 2 ^ (e + 15) ->
  exists (N : positive) (en : Z),
    canonical32 N en /\ -149 <= en <= e /\
    Zpos m * 2 ^ (e + 149) - 13107200 * 2 ^ 134 = Zpos N * 2 ^ (en + 149).
Proof.
  intros Hm He Hgt.
  set (a := e + 15) in *.
  assert (Ha : 0 <= a <= 19) by lia.
  set (M := Zpos m * 2 ^ a - 13107200) in *.
  assert (HM : 0 < M) by lia.
  assert (Hval : Zpos m * 2 ^ (e + 149) - 13107200 * 2 ^ 134 = M * 2 ^ 134).
  { unfold M. replace (e + 149) with (a + 134) by lia.
    rewrite pow2_add by lia. ring. }
  rewrite Hval.
  set (dM := Z.log2 M + 1).
  assert (HdM : 2 ^ (dM - 1) <= M < 2 ^ dM).
  { unfold dM. replace (Z.log2 M + 1 - 1) with (Z.log2 M) by lia.
    replace (Z.log2 M + 1) with (Z.succ (Z.log2 M)) by lia.
    apply Z.log2_spec. exact HM. }
  assert (HdM1 : 1 <= dM) by (unfold dM; pose proof (Z.log2_nonneg M); lia).
  assert (HdMa : dM <= 24 + a).
  { assert (M < 2 ^ (24 + a)).
    { rewrite pow2_add by lia. assert (0 < 2 ^ a) by (apply pow2_pos; lia). nia. }
    assert (Z.log2 M < 24 + a) by (apply Z.log2_lt_pow2; lia).
    unfold dM. lia. }
  destruct (Z_le_gt_dec dM 24) as [Hsmall|Hbig].
  - (* short mantissa: shift left *)
    assert (HN : 0 < M * 2 ^ (24 - dM))
      by (apply Z.mul_pos_pos; [lia|apply pow2_pos; lia]).
    destruct (M * 2 ^ (24 - dM)) as [|N|N] eqn:EN; try lia.
    exists N, (dM - 39).
    assert (Hd : Zpos (digits2_pos N) = 24).
    { rewrite digits2_log2, <- EN, Z.log2_mul_pow2 by lia. unfold dM. lia. }
    split; [|split].
    + unfold canonical32. rewrite Hd, fexp_eq. lia.
    + lia.
    + rewrite <- EN, <- Z.mul_assoc, <- pow2_add by lia.
      f_equal; f_equal; lia.
  - (* long mantissa: the low bits are zero *)
    set (n := dM - 24).
    assert (Hn : 0 < n <= a) by (unfold n; lia).
    set (Nz := Zpos m * 2 ^ (a - n) - 25 * 2 ^ (19 - n)).
    assert (EM : M = Nz * 2 ^ n).
    { unfold Nz, M. rewrite Z.mul_sub_distr_r, <- !Z.mul_assoc, <- !pow2_add by lia.
      replace (a - n + n) with a by lia. replace (19 - n + n) with 19 by lia.
      reflexivity. }
    assert (HNz : 0 < Nz).
    { assert (0 < 2 ^ n) by (apply pow2_pos; lia). nia. }
    destruct Nz as [|N|N] eqn:ENz; try lia.
    exists N, (dM - 39).
    assert (Hd : Zpos (digits2_pos N) = 24).
    { rewrite digits2_log2.
      assert (L : Z.log2 M = n + Z.log2 (Zpos N))
        by (rewrite EM; apply Z.log2_mul_pow2; lia).
      unfold dM, n in *. lia. }
    split; [|split].
    + unfold canonical32. rewrite Hd, fexp_eq. lia.
    + lia.
    + rewrite EM, <- Z.mul_assoc, <- pow2_add by lia.
      f_equal; f_equal; unfold n; lia.
Qed.

Lemma valid_finite (s : bool) (m : positive) (e : Z) :
  valid_binary 24 128 (S754_finite s m e) = true ->
  canonical32 m e /\ -149 <= e <= 104.
Proof.
  cbn [valid_binary]. unfold bounded, canonical_mantissa, canonical32.
  rewrite andb_true_iff, Z.eqb_eq, Z.leb_le. intros [Hc He].
  split; [exact Hc|]. rewrite fexp_eq in Hc. lia.
Qed.

Lemma normal_mantissa (m : positive) (e : Z) :
  canonical32 m e -> -149 < e -> 2 ^ 23 <= Zpos m < 2 ^ 24.
Proof.
  unfold canonical32. rewrite fexp_eq. intros Hc He.
  assert (Hd : Zpos (digits2_pos m) = 24) by lia.
  pose proof (digits2_bounds m) as Hb. rewrite Hd in Hb. exact Hb.
Qed.

Lemma above_400 (s : bool) (m : positive) (e : Z) :
  SFltb (S754_finite false 13107200 (-15)) (S754_finite s m e) = true ->
  s = false /\ (-15 < e \/ (e = -15 /\ 13107200 < Zpos m)).
Proof.
  unfold SFltb, SFcompare. destruct s; [discriminate|].
  destruct (Z.compare_spec (-15) e) as [<-|Hlt|Hgt]; try discriminate.
  - rewrite Pos.compare_cont_spec. cbn [Pos.switch_Eq].
    destruct (Pos.compare_spec 13107200 m) as [|Hm|]; try discriminate.
    intros _. split; [reflexivity|]. right. split; [reflexivity|]. lia.
  - intros _. split; [reflexivity|]. now left.
Qed.

Lemma below_minus_400 (s : bool) (m : positive) (e : Z) :
  SFltb (S754_finite s m e) (S754_finite true 13107200 (-15)) = true ->
  s = true /\ (-15 < e \/ (e = -15 /\ 13107200 < Zpos m)).
Proof.
  unfold SFltb, SFcompare. destruct s; [|discriminate].
  destruct (Z.compare_spec e (-15)) as [->|Hlt|Hgt]; try discriminate.
  - rewrite Pos.compare_cont_spec. cbn [Pos.switch_Eq].
    destruct (Pos.compare_spec m 13107200) as [|Hm|]; try discriminate.
    intros _. split; [reflexivity|]. right. split; [reflexivity|]. lia.
  - intros _. split; [reflexivity|]. now left.
Qed.

Lemma below_2p28 (s : bool) (m : positive) (e : Z) :
  canonical32 m e ->
  SFltb (SFabs (S754_finite s m e)) (S754_finite false 8388608 5) = true ->
  e < 5.
Proof.
  intros Hc. unfold SFltb, SFabs, SFcompare.
  destruct (Z.compare_spec e 5) as [->|Hlt|Hgt]; try discriminate; [|lia].
  rewrite Pos.compare_cont_spec. cbn [Pos.switch_Eq].
  destruct (Pos.compare_spec m 8388608) as [|Hm|]; try discriminate.
  intros _. pose proof (normal_mantissa m 5 Hc ltac:(lia)) as Hb.
  change (2 ^ 23) with 8388608 in Hb. lia.
Qed.

(** The shifted track of the first or third block when both nominal tracks
    are the same float x: x - (x - 400) is 400 above 400, and
    x - (x + 400) is -400 below -400, as long as |x| < 2^28. *)
Lemma shift_back (s : bool) (m : positive) (e : Z) :
  canonical32 m e -> -15 <= e <= 4 ->
  (-15 < e \/ (e = -15 /\ 13107200 < Zpos m)) ->
  let x := S754_finite s m e in
  let l400 := S754_finite false 13107200 (-15) in
  SFsub 24 128 x (if s then SFadd 24 128 x l400 else SFsub 24 128 x l400) =
  S754_finite s 13107200 (-15).
Proof.
  intros Hc He Hgt x l400.
  pose proof (normal_mantissa m e Hc ltac:(lia)) as Hm.
  assert (Hv : 13107200 < Zpos m * 2 ^ (e + 15)).
  { destruct Hgt as [Hlt|[-> Hlt]]; [|cbn; lia].
    assert (2 <= 2 ^ (e + 15)).
    { change 2 with (2 ^ 1) at 1. apply Z.pow_le_mono_r; lia. }
    change (2 ^ 23) with 8388608 in Hm. nia. }
  destruct (minus_400_representable m e Hm He Hv) as (N & en & HcN & Hen & Eval).
  assert (ED : (if s then SFadd 24 128 x l400 else SFsub 24 128 x l400)
               = S754_finite s N en).
  { destruct s; unfold x, l400.
    - apply (SFadd_opp_exact true); try lia; try assumption.
    - apply (SFsub_exact false); try lia; try assumption. }
  rewrite ED. unfold x.
  apply SFsub_exact; try lia. reflexivity.
Qed.

Lemma b32_lit_400 : b32_lit 400 = S754_finite false 13107200 (-15).
Proof. reflexivity. Qed.
Lemma b32_lit_m400 : b32_lit (-400) = S754_finite true 13107200 (-15).
Proof. reflexivity. Qed.
Lemma b32_lit_0 : b32_lit 0 = S754_zero false.
Proof. reflexivity. Qed.
Lemma b32_lit_2p28 : b32_lit 268435456 = S754_finite false 8388608 5.
Proof. reflexivity. Qed.

Lemma SFeqb_refl_finite (s : bool) (m : positive) (e : Z) :
  SFeqb (S754_finite s m e) (S754_finite s m e) = true.
Proof.
  unfold SFeqb, SFcompare.
  destruct s; rewrite Z.compare_refl, Pos.compare_cont_refl; reflexivity.
Qed.

(** C10: on binary32, for every float below 2^28 = 268435456 in magnitude,
    the command (lin, 0) is sent with equal tracks, clamped or not: up to
    there [lin - 400] and [lin + 400] are floats and the shift gives back
    the limit itself. *)
Theorem straight_stays_straight_below_2p28 (lin : spec_float) :
  valid_binary 24 128 lin = true ->
  SFltb (SFabs lin) (lit 268435456) = true ->
  SFeqb (fst (wheel_speeds lin (lit 0))) (snd (wheel_speeds lin (lit 0))) = true.
Proof.
  intros Hvalid Hbound.
  cbn [lit Num_binary32] in *. rewrite b32_lit_2p28 in Hbound.
  destruct lin as [s|s| |s m e].
  - destruct s; reflexivity.
  - destruct s; discriminate Hbound.
  - discriminate Hbound.
  - destruct (valid_finite s m e Hvalid) as [Hc He].
    pose proof (below_2p28 s m e Hc Hbound) as He5.
    unfold wheel_speeds, constrain.
    cbn [fsub fadd fltb lit Num_binary32].
    rewrite b32_lit_0, b32_lit_400, b32_lit_m400.
    change (SFsub 24 128 (S754_finite s m e) (S754_zero false))
      with (S754_finite s m e).
    change (SFadd 24 128 (S754_finite s m e) (S754_zero false))
      with (S754_finite s m e).
    set (x := S754_finite s m e).
    set (l400 := S754_finite false 13107200 (-15)).
    set (lm400 := S754_finite true 13107200 (-15)).
    destruct (SFltb l400 x) eqn:G1.
    + destruct (above_400 s m e G1) as [-> Hgt].
      pose proof (shift_back false m e Hc ltac:(lia) Hgt) as Hs.
      cbn zeta in Hs. fold x l400 in Hs. cbn iota in Hs. rewrite Hs.
      reflexivity.
    + destruct (SFltb x lm400) eqn:G3.
      * destruct (below_minus_400 s m e G3) as [-> Hgt].
        pose proof (shift_back true m e Hc ltac:(lia) Hgt) as Hs.
        cbn zeta in Hs. fold x l400 in Hs. cbn iota in Hs. rewrite Hs.
        reflexivity.
      * apply SFeqb_refl_finite.
Qed.

Lemma straight_stays_straight_below_2p28_witness :
  valid_binary 24 128 (b32_lit 1000) = true /\
  SFltb (SFabs (b32_lit 1000)) (lit 268435456) = true /\
  SFeqb (fst (wheel_speeds (b32_lit 1000) (lit 0)))
        (snd (wheel_speeds (b32_lit 1000) (lit 0))) = true.
Proof.
  split; [reflexivity|]. split; [reflexivity|].
  exact (straight_stays_straight_below_2p28 (b32_lit 1000) eq_refl eq_refl).
Defined.

(** C10, as first stated, at lin = 10^9 on binary32: [lin - 400] rounds to
    999999616, the right track is shifted to 384 and the left one set to
    400. *)
Lemma straight_bent_by_rounding :
  valid_binary 24 128 (b32_lit 1000000000) = true /\
  wheel_speeds (b32_lit 1000000000) (lit 0) = (b32_lit 400, b32_lit 384) /\
  SFeqb (b32_lit 400) (b32_lit 384) = false.
Proof. repeat split. Qed.

(** *** Rotation *)







End Binary32.
